(** * Gamut-boundary chroma derivation of filmic v6

    Shallow embedding of [tools/derive_filmic_v6_gamut_mapping.py].

    The script builds, by substitution, the expression of one component of
    the target RGB as a function of the chroma [c] of a colour given in polar
    Yrg coordinates, and asks sympy for the real zeros in [c] of
    [component - k].

    Conventions of the embedding:
    - sympy symbols [Y], [ch], [sh], [a1], [a2], [a3], [k] range over the reals
      (type [R]); the decimal literals of the script are read as the exact
      decimal fractions they denote;
    - the part of the script before the division only adds expressions and
      multiplies them by coefficients, so it is written once, over any carrier
      with these two operations ([Lin]), and used at two carriers: the reals
      (the expression evaluated at a value of [c]) and affine forms in [c]
      (the expression with [c] kept as a symbol);
    - the division follows sympy's arithmetic, where dividing by zero raises
      nothing and gives the values [zoo] (complex infinity) and [nan]. *)

From Stdlib Require Import Reals Lra Field List Bool String.
Import ListNotations.
Open Scope R_scope.

(** ** Numbers with sympy's two non-finite values *)

Module Num.

Inductive num : Type :=
| Fin (x : R)
| zoo
| nan.

Definition is_finite (a : num) : Prop :=
  match a with Fin _ => True | _ => False end.

(** [Add]: [zoo + zoo] and anything with [nan] is [nan]. *)
Definition add (a b : num) : num :=
  match a, b with
  | nan, _ | _, nan => nan
  | Fin x, Fin y => Fin (x + y)
  | zoo, zoo => nan
  | zoo, Fin _ | Fin _, zoo => zoo
  end.

(** [Mul]: [0 * zoo] is [nan]. *)
Definition mul (a b : num) : num :=
  match a, b with
  | nan, _ | _, nan => nan
  | Fin x, Fin y => Fin (x * y)
  | zoo, zoo => zoo
  | zoo, Fin x | Fin x, zoo => if Req_dec_T x 0 then nan else zoo
  end.

(** [Pow(_, -1)]: [0 ** -1] is [zoo]. *)
Definition inv (a : num) : num :=
  match a with
  | Fin x => if Req_dec_T x 0 then zoo else Fin (/ x)
  | zoo => Fin 0
  | nan => nan
  end.

(** [a / b] is [Mul(a, Pow(b, -1))]. *)
Definition div (a b : num) : num := mul a (inv b).

(** [a - b] is [Add(a, Mul(-1, b))]. *)
Definition sub (a b : num) : num := add a (mul (Fin (-1)) b).

End Num.
Import Num.

(** ** Carriers of the linear part *)

Class Lin (T : Type) : Type := {
  lconst : R -> T;        (* a number *)
  ladd : T -> T -> T;     (* e1 + e2 *)
  lscale : R -> T -> T    (* coefficient * e *)
}.

Definition lsub {T} `{Lin T} (x y : T) : T := ladd x (lscale (-1) y).

#[export] Instance Lin_R : Lin R :=
  {| lconst := fun x => x; ladd := Rplus; lscale := Rmult |}.

#[export] Instance Lin_num : Lin num :=
  {| lconst := Fin; ladd := Num.add; lscale := fun k => Num.mul (Fin k) |}.

(** Affine forms [cst + slope * c] in the symbol [c]. *)
Record aff : Type := mkAff { cst : R; slope : R }.

Definition aeval (p : aff) (c : R) : R := cst p + slope p * c.

#[export] Instance Lin_aff : Lin aff :=
  {| lconst := fun x => mkAff x 0;
     ladd := fun p q => mkAff (cst p + cst q) (slope p + slope q);
     lscale := fun k p => mkAff (k * cst p) (k * slope p) |}.

(** The symbol [c] itself. *)
Definition c_sym : aff := mkAff 0 1.

(** Polynomials in [c] as coefficient lists, lowest degree first. *)
Definition poly : Type := list R.

Fixpoint peval (p : poly) (c : R) : R :=
  match p with
  | [] => 0
  | a :: p' => a + c * peval p' c
  end.

Definition poly_of_aff (p : aff) : poly := [cst p; slope p].

(** ** The script, line by line *)

Definition vec3 (T : Type) : Type := (T * T * T)%type.
Definition mat3 : Type := vec3 (vec3 R).

(** Fixed constants (lines 38, 46-50, 54). *)
Definition r0 : R := 21902143 / 100000000.    (* 0.21902143 *)
Definition r0' : R := 54371398 / 100000000.   (* 0.54371398 *)
Definition w1 : R := 68990272 / 100000000.    (* 0.68990272 *)
Definition w2 : R := 34832189 / 100000000.    (* 0.34832189 *)

Definition rgb_to_lms : mat3 :=
  ((95 / 100, 38 / 100, 0),
   (5 / 100, 62 / 100, 3 / 100),
   (0, 0, 97 / 100)).

Section Linear.
Context {T : Type} `{Lin T}.

(** Row of coefficients times column. *)
Definition dot (row : vec3 R) (v : vec3 T) : T :=
  let '(m1, m2, m3) := row in
  let '(x, y, z) := v in
  ladd (ladd (lscale m1 x) (lscale m2 y)) (lscale m3 z).

Definition mat_vec (m : mat3) (v : vec3 T) : vec3 T :=
  let '(row1, row2, row3) := m in
  (dot row1 v, dot row2 v, dot row3 v).

(** Line 38: [Yrg = Matrix([[Y, c * ch + 0.21902143, c * sh + 0.54371398]])].
    [buildColourCoordinate] of the specification. *)
Definition Yrg (Y : R) (c : T) (ch sh : R) : R * T * T :=
  (Y, ladd (lscale ch c) (lconst r0), ladd (lscale sh c) (lconst r0')).

(** Lines 41-43: [rgb = Matrix([[r, g, 1 - r - g]])].
    [toNormalizedRGB] of the specification. *)
Definition rgb (yrg : R * T * T) : vec3 T :=
  let '(_, r, g) := yrg in
  (r, g, lsub (lsub (lconst 1) r) g).

(** Line 51: [lms = rgb_to_lms * rgb].  [rgbToLMS] of the specification. *)
Definition lms (v : vec3 T) : vec3 T := mat_vec rgb_to_lms v.

(** Line 54, the divisor: [0.68990272 * lms[0, 0] + 0.34832189 * lms[1, 0]]. *)
Definition luminance (v : vec3 T) : T :=
  let '(l, m, _) := v in
  ladd (lscale w1 l) (lscale w2 m).

(** The normalized lms of the colour of chroma [c] and hue [(ch, sh)]. *)
Definition lms_of (Y : R) (c : T) (ch sh : R) : vec3 T :=
  lms (rgb (Yrg Y c ch sh)).
End Linear.

(** Line 54: [coeff = Y / (0.68990272 * lms[0, 0] + 0.34832189 * lms[1, 0])]. *)
Definition coeff (Y : R) (v : vec3 R) : num :=
  Num.div (Fin Y) (Fin (luminance v)).

(** Line 55: [LMS = coeff * lms], entry by entry.  With [coeff],
    [normalizeByLuminance] of the specification.  (For the coefficient [nan]
    sympy's product is the single value [nan] and no column: see [scale].) *)
Definition LMS (Y : R) (v : vec3 R) : vec3 num :=
  let '(l, m, s) := v in
  let k := coeff Y v in
  (Num.mul k (Fin l), Num.mul k (Fin m), Num.mul k (Fin s)).

(** Lines 63-64: [component = (A * LMS)[0, 0]] with [A = Matrix([[a1, a2, a3]])].
    [projectToChannel] of the specification. *)
Definition project (A : vec3 R) (v : vec3 num) : num := dot A v.

Definition component (Y c ch sh : R) (A : vec3 R) : num :=
  project A (LMS Y (lms_of Y c ch sh)).

(** The value of the product [coeff * lms] of line 55: a column, or, for the
    coefficient [nan], the single value [nan] (in sympy [nan] times anything
    is [nan]). *)
Inductive scaled : Type :=
| Column (v : vec3 num)
| Scalar (x : num).

Definition scale (k : num) (v : vec3 R) : scaled :=
  match k with
  | nan => Scalar nan
  | _ =>
      let '(l, m, s) := v in
      Column (Num.mul k (Fin l), Num.mul k (Fin m), Num.mul k (Fin s))
  end.

(** [normalizeByLuminance] as an operation that may signal a condition.
    Lines 54-55 test nothing and raise nothing, and sympy's division raises
    nothing either: the operation always returns. *)
Inductive condition : Type := DegenerateNormalization.

Inductive outcome (X : Type) : Type :=
| Returns (x : X)
| Signals (e : condition).
Arguments Returns {X} x.
Arguments Signals {X} e.

Definition normalizeByLuminance (v : vec3 R) (Y : R) : outcome scaled :=
  Returns (scale (coeff Y v) v).

(** ** The expression with [c] kept as a symbol *)

(** A quotient of two affine forms in [c]. *)
Record quot : Type := mkQuot { numer : aff; denom : aff }.

Definition qeval (q : quot) (c : R) : num :=
  Num.div (Fin (aeval (numer q) c)) (Fin (aeval (denom q) c)).

(** Lines 54-64 on the symbol: [coeff] is [Y] over the luminance of [lms],
    every entry of [LMS] has that same divisor, and so has the sum
    [a1 * LMS[0] + a2 * LMS[1] + a3 * LMS[2]]. *)
Definition component_sym (Y ch sh : R) (A : vec3 R) : quot :=
  let v := lms_of Y c_sym ch sh in
  mkQuot (lscale Y (dot A v)) (luminance v).

(** Line 72, the argument of the solver: [component - k], over the
    divisor of [component]. *)
Definition minus_const (q : quot) (k : R) : quot :=
  mkQuot (lsub (numer q) (lscale k (denom q))) (denom q).

(** Sets of reals in the shapes the solver answers with. *)
Inductive rset : Type :=
| EmptySet
| FiniteSet (x : R)
| Reals
| Complement (s t : rset).

Fixpoint In_rset (c : R) (s : rset) : Prop :=
  match s with
  | EmptySet => False
  | FiniteSet x => c = x
  | Reals => True
  | Complement s t => In_rset c s /\ ~ In_rset c t
  end.

(** Real zeros of an affine form. *)
Definition zeros (p : aff) : rset :=
  if Req_dec_T (slope p) 0
  then if Req_dec_T (cst p) 0 then Reals else EmptySet
  else FiniteSet (- cst p / slope p).

(** Modelled from the spec: [solveset_real] is imported from sympy (line 30)
    and its code is not part of the repository.  The specification asks for
    all real roots of the equation, solved as a rational equation; for a
    quotient this is the real zeros of the numerator that are not zeros of
    the divisor. *)
Definition solveset_real (q : quot) : rset :=
  Complement (zeros (numer q)) (zeros (denom q)).

(** Line 72: [solveset_real(component - k, c)].  [solveForChroma] of the
    specification. *)
Definition solveForChroma (Y ch sh : R) (A : vec3 R) (k : R) : rset :=
  solveset_real (minus_const (component_sym Y ch sh A) k).

(** Reals seen as complex numbers (real part, imaginary part). *)
Definition complex : Type := (R * R)%type.
Definition of_real (x : R) : complex := (x, 0).
Definition In_complex (z : complex) (s : rset) : Prop :=
  exists x, In_rset x s /\ z = of_real x.

(** The numerator and the divisor of [component], as polynomials in [c]. *)
Definition component_numer (Y ch sh : R) (A : vec3 R) : poly :=
  poly_of_aff (numer (component_sym Y ch sh A)).

Definition component_denom (Y ch sh : R) (A : vec3 R) : poly :=
  poly_of_aff (denom (component_sym Y ch sh A)).

(** ** Sample inputs *)

(** A cone response whose weighted sum [w1 * L + w2 * M] is zero: [L] is
    [0.34832189] and [M] is [- 0.68990272], so the two products of line 54
    are opposite. *)
Definition lms_degenerate : vec3 R := (w2, - w1, 1).

(** The root of the white-point boundary of the first channel at
    [Y = 1/2], hue 0. *)
Definition c_example : R := - 2515071391 / 2327627600.

(** ** The closed form of the boundary chroma *)

(** The single root of the cleared boundary equation, written out in the
    symbols of the script: [L0 + Lc * c], [M0 + Mc * c] and [S0 + Sc * c] are
    the three entries of [lms]. *)
Definition boundary_slope (Y ch sh : R) (A : vec3 R) (k : R) : R :=
  let '(a1, a2, a3) := A in
  let Lc := 95 / 100 * ch + 38 / 100 * sh in
  let Mc := 2 / 100 * ch + 59 / 100 * sh in
  let Sc := - (97 / 100) * (ch + sh) in
  Y * (a1 * Lc + a2 * Mc + a3 * Sc) - k * (w1 * Lc + w2 * Mc).

Definition boundary_chroma (Y ch sh : R) (A : vec3 R) (k : R) : R :=
  let '(a1, a2, a3) := A in
  let L0 := 95 / 100 * r0 + 38 / 100 * r0' in
  let M0 := 2 / 100 * r0 + 59 / 100 * r0' + 3 / 100 in
  let S0 := 97 / 100 * (1 - r0 - r0') in
  (k * (w1 * L0 + w2 * M0) - Y * (a1 * L0 + a2 * M0 + a3 * S0))
  / boundary_slope Y ch sh (a1, a2, a3) k.

(** The sense in which [component] varies with [c]: the determinant
    [p1 * q0 - p0 * q1] of its numerator [p0 + p1 * c] and divisor
    [q0 + q1 * c]. *)
Definition chroma_trend (Y ch sh : R) (A : vec3 R) : R :=
  let p := numer (component_sym Y ch sh A) in
  let q := denom (component_sym Y ch sh A) in
  slope p * cst q - cst p * slope q.

(** ** The notification bot, [.ci/matrix.py] *)

Module MatrixBot.

(** The namespace answered by [parser.parse_args()]: an option that is not
    on the command line is [None]. *)
Record Args : Type := mkArgs {
  message : option string;
  server : option string;
  user : option string;
  token : option string;
  room : option string
}.

(** One call of [bot.api.send_markdown_message]. *)
Record Sent : Type := mkSent {
  room_id : string;
  body : string;
  msgtype : string
}.

(** How a call of the listener ends: it returns, [exit()] ends the process,
    or the call of the API raises. *)
Inductive status : Type := Returned | Exited | Raised.

(** Line 50, the f-string of [args.message]: the text of the option,
    [None] printed as the word. *)
Definition format (m : option string) : string :=
  match m with
  | Some text => text
  | None => "None"
  end.

(** [args.room and args.room != joined_room_id]: [None] and the empty string
    are false. *)
Definition other_room (r : option string) (joined_room_id : string) : bool :=
  match r with
  | Some name => negb (name =? EmptyString)%string && negb (name =? joined_room_id)%string
  | None => false
  end.

Section Listener.
Variable args : Args.
(** Whether the API raises on a call. *)
Variable api_raises : Sent -> bool.

(** [send_message], on the list of the API calls issued so far. *)
Definition send_message (joined_room_id : string) (calls : list Sent)
  : list Sent * status :=
  if other_room (room args) joined_room_id then (calls, Returned)
  else
    let call := mkSent joined_room_id (format (message args)) "m.notice" in
    if api_raises call then (calls ++ [call], Raised)
    else (calls ++ [call], Exited).

(** The listener called on startup for the joined rooms, one after the
    other, until a call does not return. *)
Fixpoint startup (rooms : list string) (calls : list Sent)
  : list Sent * status :=
  match rooms with
  | [] => (calls, Returned)
  | joined_room_id :: rest =>
      match send_message joined_room_id calls with
      | (calls', Returned) => startup rest calls'
      | ended => ended
      end
  end.
End Listener.

End MatrixBot.

(** ** Evaluation of the symbolic carrier *)

Section AffineEvaluation.
Variable c : R.

Lemma aeval_const (x : R) : aeval (lconst x) c = x.
Proof. unfold aeval; cbn; ring. Qed.

Lemma aeval_add (p q : aff) : aeval (ladd p q) c = aeval p c + aeval q c.
Proof. unfold aeval; cbn; ring. Qed.

Lemma aeval_scale (k : R) (p : aff) : aeval (lscale k p) c = k * aeval p c.
Proof. unfold aeval; cbn; ring. Qed.

Lemma aeval_sub (p q : aff) : aeval (lsub p q) c = aeval p c - aeval q c.
Proof. unfold lsub; rewrite aeval_add, aeval_scale; ring. Qed.

Lemma aeval_c_sym : aeval c_sym c = c.
Proof. unfold aeval, c_sym; cbn; ring. Qed.

Lemma aeval_dot (row : vec3 R) (v : vec3 aff) :
  aeval (dot row v) c =
  dot row (aeval (fst (fst v)) c, aeval (snd (fst v)) c, aeval (snd v) c).
Proof.
  destruct row as [[m1 m2] m3], v as [[x y] z]; unfold dot.
  rewrite !aeval_add, !aeval_scale; reflexivity.
Qed.
End AffineEvaluation.

#[local] Set Warnings "-implicit-create-rewrite-hint-db".
#[local] Hint Rewrite aeval_const aeval_add aeval_scale aeval_sub aeval_c_sym
  : aeval.

(** The symbolic lms, evaluated, is the lms of the value. *)
Lemma lms_of_sym (Y c ch sh : R) :
  let v := lms_of Y c_sym ch sh in
  (aeval (fst (fst v)) c, aeval (snd (fst v)) c, aeval (snd v) c)
  = lms_of Y c ch sh.
Proof.
  cbv [lms_of lms rgb Yrg mat_vec rgb_to_lms dot fst snd].
  autorewrite with aeval. cbn [ladd lscale lconst lsub Lin_R].
  unfold lsub; cbn [ladd lscale lconst Lin_R].
  repeat apply f_equal2; ring.
Qed.

Lemma luminance_sym (Y c ch sh : R) :
  aeval (luminance (lms_of Y c_sym ch sh)) c = luminance (lms_of Y c ch sh).
Proof.
  rewrite <- (lms_of_sym Y c ch sh).
  destruct (lms_of Y c_sym ch sh) as [[l m] s]; cbn [fst snd luminance].
  rewrite aeval_add, !aeval_scale; reflexivity.
Qed.

Lemma dot_sym (Y c ch sh : R) (A : vec3 R) :
  aeval (dot A (lms_of Y c_sym ch sh)) c = dot A (lms_of Y c ch sh).
Proof. rewrite aeval_dot, lms_of_sym; reflexivity. Qed.

(** The divisor as an affine form: its constant term does not depend on the
    hue and is not zero; its slope is a fixed combination of [ch] and [sh]. *)
Lemma luminance_cst (Y ch sh : R) :
  cst (luminance (lms_of Y c_sym ch sh)) = 4098040824255 / 10000000000000.
Proof. cbv [lms_of lms rgb Yrg mat_vec rgb_to_lms dot luminance c_sym lsub
            ladd lscale lconst Lin_aff cst slope r0 r0' w1 w2]. field. Qed.

Lemma luminance_slope (Y ch sh : R) :
  slope (luminance (lms_of Y c_sym ch sh))
  = 6623740218 / 10000000000 * ch + 4676729487 / 10000000000 * sh.
Proof. cbv [lms_of lms rgb Yrg mat_vec rgb_to_lms dot luminance c_sym lsub
            ladd lscale lconst Lin_aff cst slope r0 r0' w1 w2]. field. Qed.

Lemma luminance_sym_nonzero (Y ch sh : R) :
  cst (luminance (lms_of Y c_sym ch sh)) <> 0.
Proof. rewrite luminance_cst; lra. Qed.

(** ** The division *)

Lemma Fin_inj (x y : R) : Fin x = Fin y -> x = y.
Proof. intros E; injection E as E; exact E. Qed.

Lemma div_finite (x y : R) : y <> 0 -> Num.div (Fin x) (Fin y) = Fin (x / y).
Proof.
  intros Hy; unfold Num.div, Num.inv.
  destruct (Req_dec_T y 0) as [E | _]; [contradiction | reflexivity].
Qed.

Lemma div_by_zero (x : R) :
  Num.div (Fin x) (Fin 0) = if Req_dec_T x 0 then nan else zoo.
Proof.
  unfold Num.div, Num.inv.
  destruct (Req_dec_T 0 0) as [_ | N]; [reflexivity | contradiction N; reflexivity].
Qed.

Lemma mul_not_finite (a : num) (x : R) :
  ~ is_finite a -> ~ is_finite (Num.mul a (Fin x)) /\ ~ is_finite (Num.mul (Fin x) a).
Proof.
  destruct a as [y | |]; cbn; intros Ha.
  - exfalso; apply Ha; exact I.
  - destruct (Req_dec_T x 0); cbn; tauto.
  - tauto.
Qed.

Lemma add_not_finite (a b : num) :
  ~ is_finite a -> ~ is_finite b -> ~ is_finite (Num.add a b).
Proof. destruct a, b; cbn; tauto. Qed.

Lemma coeff_finite (Y : R) (v : vec3 R) :
  luminance v <> 0 -> coeff Y v = Fin (Y / luminance v).
Proof. intros Hv; unfold coeff; apply div_finite; exact Hv. Qed.

Lemma coeff_degenerate (Y : R) (v : vec3 R) :
  luminance v = 0 -> coeff Y v = if Req_dec_T Y 0 then nan else zoo.
Proof. intros Hv; unfold coeff; rewrite Hv; apply div_by_zero. Qed.

Lemma coeff_degenerate_not_finite (Y : R) (v : vec3 R) :
  luminance v = 0 -> ~ is_finite (coeff Y v).
Proof.
  intros Hv; rewrite (coeff_degenerate Y v Hv).
  destruct (Req_dec_T Y 0); cbn; tauto.
Qed.

Lemma LMS_finite (Y : R) (v : vec3 R) :
  luminance v <> 0 ->
  LMS Y v = (Fin (Y / luminance v * fst (fst v)),
             Fin (Y / luminance v * snd (fst v)),
             Fin (Y / luminance v * snd v)).
Proof.
  intros Hv; destruct v as [[l m] s]; unfold LMS.
  rewrite (coeff_finite Y _ Hv); reflexivity.
Qed.

Lemma component_finite (Y c ch sh : R) (A : vec3 R) :
  luminance (lms_of Y c ch sh) <> 0 ->
  component Y c ch sh A
  = Fin (Y * dot A (lms_of Y c ch sh) / luminance (lms_of Y c ch sh)).
Proof.
  intros Hv; unfold component, project.
  rewrite (LMS_finite Y _ Hv).
  destruct A as [[m1 m2] m3], (lms_of Y c ch sh) as [[l m] s].
  cbn [dot fst snd ladd lscale Lin_num Lin_R Num.add Num.mul].
  f_equal; field; exact Hv.
Qed.

Lemma component_degenerate (Y c ch sh : R) (A : vec3 R) :
  luminance (lms_of Y c ch sh) = 0 -> ~ is_finite (component Y c ch sh A).
Proof.
  intros Hv; unfold component, project.
  pose proof (coeff_degenerate_not_finite Y _ Hv) as Hk.
  destruct A as [[m1 m2] m3], (lms_of Y c ch sh) as [[l m] s].
  unfold LMS; cbn [dot ladd lscale Lin_num].
  repeat apply add_not_finite; apply mul_not_finite; apply mul_not_finite; exact Hk.
Qed.

(** The forward pipeline gives a finite value exactly when the divisor is
    not zero. *)
Lemma component_finite_iff (Y c ch sh : R) (A : vec3 R) :
  is_finite (component Y c ch sh A) <-> luminance (lms_of Y c ch sh) <> 0.
Proof.
  split.
  - intros Hf Hv; exact (component_degenerate Y c ch sh A Hv Hf).
  - intros Hv; rewrite (component_finite Y c ch sh A Hv); exact I.
Qed.

(** ** The solver *)

Lemma zeros_spec (p : aff) (c : R) : In_rset c (zeros p) <-> aeval p c = 0.
Proof.
  unfold zeros, aeval.
  destruct (Req_dec_T (slope p) 0) as [Es | Ns].
  - rewrite Es; destruct (Req_dec_T (cst p) 0) as [Ec | Nc]; cbn; split; intros; lra.
  - cbn; split; intros Hc.
    + subst c; field; exact Ns.
    + apply (Rmult_eq_reg_l (slope p)); [ | exact Ns].
      field_simplify; [lra | exact Ns].
Qed.

Lemma solveset_real_spec (q : quot) (c : R) :
  In_rset c (solveset_real q) <->
  aeval (numer q) c = 0 /\ aeval (denom q) c <> 0.
Proof. unfold solveset_real; cbn; rewrite !zeros_spec; tauto. Qed.

(** The solver answers with the reals at which the quotient evaluates to 0. *)
Lemma solveset_real_qeval (q : quot) (c : R) :
  In_rset c (solveset_real q) <-> qeval q c = Fin 0.
Proof.
  rewrite solveset_real_spec. unfold qeval.
  destruct (Req_dec_T (aeval (denom q) c) 0) as [E | N].
  - rewrite E, div_by_zero. split.
    + intros [_ Hn]; contradiction Hn; reflexivity.
    + destruct (Req_dec_T (aeval (numer q) c) 0); discriminate.
  - rewrite (div_finite _ _ N). split.
    + intros [Hz _]. rewrite Hz. f_equal. field. exact N.
    + intros Hq. apply Fin_inj in Hq. split; [ | exact N].
      apply (Rmult_eq_reg_r (/ aeval (denom q) c)).
      * rewrite Rmult_0_l. exact Hq.
      * apply Rinv_neq_0_compat. exact N.
Qed.

Lemma sub_zero_iff (a : num) (k : R) : Num.sub a (Fin k) = Fin 0 <-> a = Fin k.
Proof.
  destruct a as [x | |]; cbn; split; intros H; try discriminate.
  - apply Fin_inj in H. f_equal. lra.
  - apply Fin_inj in H. f_equal. lra.
Qed.

(** The symbolic quotient, evaluated where its divisor is not zero, is the
    forward pipeline. *)
Lemma component_sym_denom (Y c ch sh : R) (A : vec3 R) :
  aeval (denom (component_sym Y ch sh A)) c = luminance (lms_of Y c ch sh).
Proof. unfold component_sym; cbn [denom]; apply luminance_sym. Qed.

Lemma component_sym_numer (Y c ch sh : R) (A : vec3 R) :
  aeval (numer (component_sym Y ch sh A)) c = Y * dot A (lms_of Y c ch sh).
Proof.
  unfold component_sym; cbn [numer].
  rewrite aeval_scale, dot_sym; reflexivity.
Qed.

Lemma component_sym_spec (Y c ch sh : R) (A : vec3 R) :
  aeval (denom (component_sym Y ch sh A)) c <> 0 ->
  component Y c ch sh A
  = Fin (aeval (numer (component_sym Y ch sh A)) c
         / aeval (denom (component_sym Y ch sh A)) c).
Proof.
  rewrite component_sym_denom, component_sym_numer.
  apply component_finite.
Qed.

Lemma component_sym_qeval (Y c ch sh : R) (A : vec3 R) :
  luminance (lms_of Y c ch sh) <> 0 ->
  qeval (component_sym Y ch sh A) c = component Y c ch sh A.
Proof.
  intros Hv. unfold qeval.
  rewrite component_sym_denom, component_sym_numer.
  rewrite (div_finite _ _ Hv), (component_finite Y c ch sh A Hv). reflexivity.
Qed.

(** The boundary equation and its cleared form. *)
Lemma boundary_cleared (Y c ch sh : R) (A : vec3 R) (k : R) :
  component Y c ch sh A = Fin k <->
  aeval (numer (minus_const (component_sym Y ch sh A) k)) c = 0
  /\ aeval (denom (minus_const (component_sym Y ch sh A) k)) c <> 0.
Proof.
  unfold minus_const; cbn [numer denom].
  rewrite aeval_sub, aeval_scale, component_sym_denom, component_sym_numer.
  destruct (Req_dec_T (luminance (lms_of Y c ch sh)) 0) as [E | N].
  - split.
    + intros Hk. exfalso.
      apply (component_degenerate Y c ch sh A E). rewrite Hk. exact I.
    + intros [_ Hn]; contradiction.
  - rewrite (component_finite Y c ch sh A N). split.
    + intros Hk. apply Fin_inj in Hk. split; [ | exact N].
      rewrite <- Hk. field. exact N.
    + intros [Hz _]. f_equal.
      apply (Rmult_eq_reg_r (luminance (lms_of Y c ch sh))); [ | exact N].
      field_simplify; [lra | exact N].
Qed.

(** ** Properties of the computation *)

(** C1. The set answered by [solveForChroma Y h row k] is exactly the set of
    real roots of the composed equation: a real [c] is in it if and only if
    the forward pipeline at [c] evaluates to [k], that is [component - k]
    evaluates to 0 (soundness and completeness), and, its members seen as
    complex numbers, none has a non-zero imaginary part. *)
Theorem solveForChroma_exact_roots (Y ch sh : R) (A : vec3 R) (k : R) :
  (forall c : R,
      In_rset c (solveForChroma Y ch sh A k) <-> component Y c ch sh A = Fin k)
  /\ (forall c : R,
         In_rset c (solveForChroma Y ch sh A k) <->
         Num.sub (component Y c ch sh A) (Fin k) = Fin 0)
  /\ (forall z : complex,
         snd z <> 0 -> ~ In_complex z (solveForChroma Y ch sh A k)).
Proof.
  assert (Hroot : forall c : R,
             In_rset c (solveForChroma Y ch sh A k) <->
             component Y c ch sh A = Fin k).
  { intros c. unfold solveForChroma.
    rewrite solveset_real_spec, boundary_cleared. reflexivity. }
  split; [exact Hroot | split].
  - intros c. rewrite sub_zero_iff. apply Hroot.
  - intros z Hz [x [_ Hx]]. subst z. apply Hz. reflexivity.
Qed.

Lemma luminance_lms_degenerate : luminance lms_degenerate = 0.
Proof. cbv [lms_degenerate luminance ladd lscale Lin_R]. ring. Qed.

(** With a coefficient that is not [nan] the product is the column [LMS]. *)
Lemma scale_LMS (Y : R) (v : vec3 R) :
  coeff Y v <> nan -> scale (coeff Y v) v = Column (LMS Y v).
Proof.
  intros Hk. destruct v as [[l m] s]. unfold LMS, scale.
  destruct (coeff Y (l, m, s)); [reflexivity | reflexivity | contradiction Hk; reflexivity].
Qed.

Lemma mul_zoo_nonzero (x : R) : x <> 0 -> Num.mul zoo (Fin x) = zoo.
Proof.
  intros Hx. cbn. destruct (Req_dec_T x 0) as [E | _]; [contradiction | reflexivity].
Qed.




(** C3. Where the divisor is not zero, the scaled cone response has
    luminance [Y] exactly: with [coeff = Y / (w1 * L + w2 * M)] and
    [(L', M', S') = coeff * lms], [w1 * L' + w2 * M' = Y]. *)
Theorem LMS_luminance_is_Y (Y c ch sh : R) :
  luminance (lms_of Y c ch sh) <> 0 ->
  exists L M S L' M' S' : R,
    lms_of Y c ch sh = (L, M, S)
    /\ coeff Y (lms_of Y c ch sh) = Fin (Y / (w1 * L + w2 * M))
    /\ LMS Y (lms_of Y c ch sh) = (Fin L', Fin M', Fin S')
    /\ L' = Y / (w1 * L + w2 * M) * L
    /\ M' = Y / (w1 * L + w2 * M) * M
    /\ w1 * L' + w2 * M' = Y
    /\ luminance (LMS Y (lms_of Y c ch sh)) = Fin Y.
Proof.
  intros Hv.
  rewrite (LMS_finite Y _ Hv), (coeff_finite Y _ Hv).
  destruct (lms_of Y c ch sh) as [[L M] S].
  cbn [luminance ladd lscale Lin_R Lin_num fst snd Num.add Num.mul] in *.
  exists L, M, S. do 3 eexists.
  repeat split; try reflexivity.
  - field; exact Hv.
  - f_equal; field; exact Hv.
Qed.

Lemma LMS_luminance_is_Y_witness :
  luminance (lms_of (1 / 2) 0 1 0) <> 0
  /\ luminance (LMS (1 / 2) (lms_of (1 / 2) 0 1 0)) = Fin (1 / 2).
Proof.
  assert (H : luminance (lms_of (1 / 2) 0 1 0) <> 0).
  { cbv [lms_of lms rgb Yrg mat_vec rgb_to_lms dot luminance lsub
         ladd lscale lconst Lin_R r0 r0' w1 w2]. lra. }
  split; [exact H | ].
  destruct (LMS_luminance_is_Y (1 / 2) 0 1 0 H)
    as [L [M [S [L' [M' [S' [_ [_ [_ [_ [_ [_ HY]]]]]]]]]]]].
  exact HY.
Defined.

(** C4. For every [Y], [c] and hue, the normalized rgb of the colour sums to
    1 exactly, its third component being [1 - r - g]; the components are not
    confined to [[0, 1]] (the first one exceeds 1 at chroma 1, hue 0). *)
Theorem rgb_closure (Y c ch sh : R) :
  (exists r g b : R,
      rgb (Yrg Y c ch sh) = (r, g, b) /\ b = 1 - r - g /\ r + g + b = 1)
  /\ (exists r g b : R, rgb (Yrg Y 1 (cos 0) (sin 0)) = (r, g, b) /\ 1 < r).
Proof.
  split.
  - do 3 eexists. split; [reflexivity | ].
    cbn [ladd lscale lconst lsub Lin_R]; unfold lsub; cbn [ladd lscale Lin_R].
    split; ring.
  - do 3 eexists. split; [reflexivity | ].
    rewrite cos_0. cbn [ladd lscale lconst Lin_R]. unfold r0. lra.
Qed.

Lemma peval_poly_of_aff (p : aff) (c : R) : peval (poly_of_aff p) c = aeval p c.
Proof. unfold poly_of_aff, aeval; cbn; ring. Qed.

Lemma luminance_positive (c : R) : 0 <= c -> luminance (lms_of 1 c 1 0) <> 0.
Proof.
  intros Hc.
  rewrite <- luminance_sym. unfold aeval.
  rewrite luminance_cst, luminance_slope. nra.
Qed.

(** C5. For every [Y], hue and row the channel expression is a quotient
    [p(c) / q(c)] of two polynomials in [c], with [q] not identically zero:
    [r] and [g] are [ch * c + r0] and [sh * c + r0'], [q] is the
    normalization divisor, in which [c] has the coefficient
    [0.6623740218 * ch + 0.4676729487 * sh], and the boundary equation is
    [p(c) = k * q(c)] where [q(c)] is not zero.  The expression is not an
    affine function of [c] in general: it is none at [Y = 1], hue 0,
    row (1, 0, 0). *)
Theorem component_is_rational (Y ch sh : R) (A : vec3 R) (k : R) :
  (exists p q : poly,
      (exists c, peval q c <> 0)
      /\ q = [4098040824255 / 10000000000000;
              6623740218 / 10000000000 * ch + 4676729487 / 10000000000 * sh]
      /\ (forall c, peval q c = luminance (lms_of Y c ch sh))
      /\ (forall c, peval q c <> 0 ->
                    component Y c ch sh A = Fin (peval p c / peval q c))
      /\ (forall c, component Y c ch sh A = Fin k <->
                    peval p c = k * peval q c /\ peval q c <> 0))
  /\ (forall c, Yrg Y c ch sh = (Y, ch * c + r0, sh * c + r0'))
  /\ ~ (exists a b : R,
           forall c, luminance (lms_of 1 c 1 0) <> 0 ->
                     component 1 c 1 0 (1, 0, 0) = Fin (a + b * c)).
Proof.
  split; [ | split].
  - exists (component_numer Y ch sh A), (component_denom Y ch sh A).
    unfold component_numer, component_denom.
    split; [ | split; [ | split; [ | split]]].
    + exists 0. rewrite peval_poly_of_aff. unfold aeval.
      pose proof (luminance_sym_nonzero Y ch sh) as H0.
      unfold component_sym; cbn [denom]. lra.
    + unfold poly_of_aff, component_sym; cbn [denom].
      rewrite luminance_cst, luminance_slope. reflexivity.
    + intros c. rewrite peval_poly_of_aff. apply component_sym_denom.
    + intros c. rewrite !peval_poly_of_aff. apply component_sym_spec.
    + intros c. rewrite !peval_poly_of_aff, boundary_cleared.
      unfold minus_const; cbn [numer denom].
      rewrite aeval_sub, aeval_scale. split; intros [H1 H2]; split; lra || exact H2.
  - intros c. reflexivity.
  - intros [a [b Hab]].
    pose proof (Hab 0 (luminance_positive 0 ltac:(lra))) as H0.
    pose proof (Hab 1 (luminance_positive 1 ltac:(lra))) as H1.
    pose proof (Hab 2 (luminance_positive 2 ltac:(lra))) as H2.
    rewrite component_finite in H0, H1, H2 by (apply luminance_positive; lra).
    apply Fin_inj in H0, H1, H2.
    revert H0 H1 H2.
    cbv [lms_of lms rgb Yrg mat_vec rgb_to_lms dot luminance lsub
         ladd lscale lconst Lin_R r0 r0' w1 w2].
    lra.
Qed.

(** At zero chroma the colour is the white point, whatever the hue. *)
Lemma lms_of_neutral (Y ch sh : R) :
  lms_of Y 0 ch sh = lms (r0, r0', 1 - r0 - r0').
Proof.
  cbv [lms_of lms rgb Yrg mat_vec rgb_to_lms dot lsub ladd lscale lconst Lin_R].
  repeat apply f_equal2; ring.
Qed.

(** C6. At chroma 0 the forward pipeline does not depend on the hue: for
    every [Y] and row, any two hues (given by their cosine and sine, or by
    any two coordinate pairs) give the same channel value, the one of the
    neutral axis. *)
Theorem component_neutral_hue_invariant (Y : R) (A : vec3 R) :
  (forall ch1 sh1 ch2 sh2 : R,
      component Y 0 ch1 sh1 A = component Y 0 ch2 sh2 A)
  /\ (forall h1 h2 : R,
         component Y 0 (cos h1) (sin h1) A = component Y 0 (cos h2) (sin h2) A)
  /\ (forall ch sh : R,
         component Y 0 ch sh A
         = project A (LMS Y (lms (r0, r0', 1 - r0 - r0')))).
Proof.
  assert (Hn : forall ch sh : R,
             component Y 0 ch sh A
             = project A (LMS Y (lms (r0, r0', 1 - r0 - r0')))).
  { intros ch sh. unfold component. rewrite lms_of_neutral. reflexivity. }
  split; [ | split].
  - intros ch1 sh1 ch2 sh2. rewrite (Hn ch1 sh1), (Hn ch2 sh2). reflexivity.
  - intros h1 h2. rewrite (Hn (cos h1)), (Hn (cos h2)). reflexivity.
  - exact Hn.
Qed.

(** Two distinct zeros force an affine form to vanish identically. *)
Lemma aeval_two_zeros (p : aff) (c1 c2 : R) :
  aeval p c1 = 0 -> aeval p c2 = 0 -> c1 <> c2 -> cst p = 0 /\ slope p = 0.
Proof.
  unfold aeval. intros H1 H2 Hne.
  assert (Hs : slope p * (c1 - c2) = 0) by lra.
  apply Rmult_integral in Hs. destruct Hs as [Hs | Hs]; [ | lra].
  rewrite Hs in H1. split; lra.
Qed.

(** C9. Numerator and divisor of the channel expression are affine in [c]
    ([p0 + p1 * c] over [q0 + q1 * c]), so the boundary equation, cleared of
    its divisor, is the linear equation
    [(p0 - k * q0) + (p1 - k * q1) * c = 0]; unless both of its coefficients
    are zero it has at most one real root, and so has the set answered by
    the solver. *)
Theorem boundary_equation_linear (Y ch sh : R) (A : vec3 R) (k : R) :
  let p := numer (component_sym Y ch sh A) in
  let q := denom (component_sym Y ch sh A) in
  (forall c, luminance (lms_of Y c ch sh) = cst q + slope q * c)
  /\ (forall c, cst q + slope q * c <> 0 ->
                component Y c ch sh A
                = Fin ((cst p + slope p * c) / (cst q + slope q * c)))
  /\ (forall c, component Y c ch sh A = Fin k <->
                (cst p - k * cst q) + (slope p - k * slope q) * c = 0
                /\ cst q + slope q * c <> 0)
  /\ (cst p - k * cst q <> 0 \/ slope p - k * slope q <> 0 ->
      (forall c1 c2,
          component Y c1 ch sh A = Fin k -> component Y c2 ch sh A = Fin k ->
          c1 = c2)
      /\ (forall c1 c2,
             In_rset c1 (solveForChroma Y ch sh A k) ->
             In_rset c2 (solveForChroma Y ch sh A k) -> c1 = c2)).
Proof.
  intros p q.
  assert (Hk : forall c, component Y c ch sh A = Fin k <->
                         (cst p - k * cst q) + (slope p - k * slope q) * c = 0
                         /\ cst q + slope q * c <> 0).
  { intros c. rewrite boundary_cleared.
    unfold minus_const; cbn [numer denom].
    rewrite aeval_sub, aeval_scale. fold p q. unfold aeval.
    split; intros [H1 H2]; split; lra || exact H2. }
  assert (Hone : cst p - k * cst q <> 0 \/ slope p - k * slope q <> 0 ->
                 forall c1 c2,
                   component Y c1 ch sh A = Fin k ->
                   component Y c2 ch sh A = Fin k -> c1 = c2).
  { intros Hnd c1 c2 H1 H2.
    destruct (Req_dec_T c1 c2) as [E | Hne]; [exact E | exfalso].
    apply Hk in H1, H2. destruct H1 as [H1 _], H2 as [H2 _].
    destruct (aeval_two_zeros
                (mkAff (cst p - k * cst q) (slope p - k * slope q)) c1 c2
                H1 H2 Hne) as [Z0 Z1].
    cbn [cst slope] in Z0, Z1. destruct Hnd as [N | N]; apply N; assumption. }
  split; [ | split; [ | split; [exact Hk | ]]].
  - intros c. symmetry. exact (component_sym_denom Y c ch sh A).
  - intros c Hq. exact (component_sym_spec Y c ch sh A Hq).
  - intros Hnd. split; [exact (Hone Hnd) | ].
    intros c1 c2 H1 H2. apply (Hone Hnd).
    + unfold solveForChroma in H1.
      rewrite solveset_real_spec in H1. apply boundary_cleared. exact H1.
    + unfold solveForChroma in H2.
      rewrite solveset_real_spec in H2. apply boundary_cleared. exact H2.
Qed.

Lemma boundary_equation_linear_witness :
  component (1 / 2) c_example 1 0 (1, 0, 0) = Fin 1
  /\ (forall c, component (1 / 2) c 1 0 (1, 0, 0) = Fin 1 -> c = c_example).
Proof.
  pose proof (boundary_equation_linear (1 / 2) 1 0 (1, 0, 0) 1)
    as [_ [_ [Hk Hone]]].
  assert (Hroot : component (1 / 2) c_example 1 0 (1, 0, 0) = Fin 1).
  { apply Hk.
    cbv [component_sym numer denom lms_of lms rgb Yrg mat_vec rgb_to_lms dot
         luminance c_sym lsub ladd lscale lconst Lin_aff cst slope
         r0 r0' w1 w2 c_example].
    split; lra. }
  split; [exact Hroot | ].
  intros c Hc. refine (proj1 (Hone _) c c_example Hc Hroot).
  right.
  cbv [component_sym numer denom lms_of lms rgb Yrg mat_vec rgb_to_lms dot
       luminance c_sym lsub ladd lscale lconst Lin_aff cst slope
       r0 r0' w1 w2].
  lra.
Defined.

(** C10. The rgb triple and the lms before normalization do not depend on
    [Y], and the channel expression is homogeneous of degree 1 in [Y]: where
    the divisor is not zero, its value at luminance [t * Y] is [t] times its
    value at [Y]. *)
Theorem component_homogeneous (Y c ch sh : R) (A : vec3 R) (t : R) :
  luminance (lms_of Y c ch sh) <> 0 ->
  rgb (Yrg (t * Y) c ch sh) = rgb (Yrg Y c ch sh)
  /\ lms_of (t * Y) c ch sh = lms_of Y c ch sh
  /\ component (t * Y) c ch sh A = Num.mul (Fin t) (component Y c ch sh A)
  /\ exists x : R,
      component Y c ch sh A = Fin x /\ component (t * Y) c ch sh A = Fin (t * x).
Proof.
  intros Hv.
  assert (Hl : lms_of (t * Y) c ch sh = lms_of Y c ch sh) by reflexivity.
  split; [reflexivity | ]. split; [exact Hl | ].
  rewrite (component_finite Y c ch sh A Hv).
  rewrite (component_finite (t * Y) c ch sh A) by (rewrite Hl; exact Hv).
  rewrite Hl. split.
  - cbn [Num.mul]. f_equal. field. exact Hv.
  - eexists. split; [reflexivity | ]. f_equal. field. exact Hv.
Qed.

Lemma component_homogeneous_witness :
  luminance (lms_of (1 / 2) 0 1 0) <> 0
  /\ component (3 * (1 / 2)) 0 1 0 (1, 0, 0)
     = Num.mul (Fin 3) (component (1 / 2) 0 1 0 (1, 0, 0)).
Proof.
  assert (H : luminance (lms_of (1 / 2) 0 1 0) <> 0).
  { cbv [lms_of lms rgb Yrg mat_vec rgb_to_lms dot luminance lsub
         ladd lscale lconst Lin_R r0 r0' w1 w2]. lra. }
  split; [exact H | ].
  exact (proj1 (proj2 (proj2 (component_homogeneous (1 / 2) 0 1 0 (1, 0, 0) 3 H)))).
Defined.

(** ** Further properties of the derivation *)

Ltac unfold_pipeline :=
  cbv [lms_of lms rgb Yrg mat_vec rgb_to_lms dot luminance lsub
       ladd lscale lconst Lin_R r0 r0' w1 w2 fst snd].

(** The divisor, written out. *)
Lemma luminance_value (Y c ch sh : R) :
  luminance (lms_of Y c ch sh)
  = 4098040824255 / 10000000000000
    + (6623740218 / 10000000000 * ch + 4676729487 / 10000000000 * sh) * c.
Proof.
  rewrite <- luminance_sym. unfold aeval.
  rewrite luminance_cst, luminance_slope. reflexivity.
Qed.

(** X1. [rgb_to_lms] keeps the sum of the three components (its columns
    sum to 1), so the lms of every colour is normalized like its rgb: the
    three entries sum to 1. *)
Theorem lms_is_normalized (Y c ch sh x y z : R) :
  (fst (fst (lms (x, y, z))) + snd (fst (lms (x, y, z))) + snd (lms (x, y, z))
   = x + y + z)
  /\ fst (fst (lms_of Y c ch sh)) + snd (fst (lms_of Y c ch sh))
     + snd (lms_of Y c ch sh) = 1.
Proof. split; unfold_pipeline; field. Qed.

(** X2. On the neutral axis the normalization is always defined: at chroma 0
    the divisor is 0.4098040824255 whatever the hue, the channel value is
    finite, and chroma 0 is a root of the boundary equation exactly when
    [k] is that neutral value. *)
Theorem neutral_axis_defined (Y ch sh : R) (A : vec3 R) (k : R) :
  luminance (lms_of Y 0 ch sh) = 4098040824255 / 10000000000000
  /\ is_finite (component Y 0 ch sh A)
  /\ component Y 0 ch sh A
     = Fin (Y * dot A (lms (r0, r0', 1 - r0 - r0'))
            / (4098040824255 / 10000000000000))
  /\ (In_rset 0 (solveForChroma Y ch sh A k) <->
      k = Y * dot A (lms (r0, r0', 1 - r0 - r0'))
          / (4098040824255 / 10000000000000)).
Proof.
  assert (Hq : luminance (lms_of Y 0 ch sh) = 4098040824255 / 10000000000000).
  { rewrite luminance_value. lra. }
  assert (Hn : luminance (lms_of Y 0 ch sh) <> 0) by (rewrite Hq; lra).
  assert (Hc : component Y 0 ch sh A
               = Fin (Y * dot A (lms (r0, r0', 1 - r0 - r0'))
                      / (4098040824255 / 10000000000000))).
  { rewrite (component_finite Y 0 ch sh A Hn), Hq, lms_of_neutral. reflexivity. }
  split; [exact Hq | ]. split; [rewrite Hc; exact I | ]. split; [exact Hc | ].
  unfold solveForChroma. rewrite solveset_real_spec, <- boundary_cleared, Hc.
  split.
  - intros E. apply Fin_inj in E. symmetry. exact E.
  - intros ->. reflexivity.
Qed.

(** X4. For a hue given by an angle, the divisor stays positive, and the
    channel value finite, for every chroma of magnitude at most 1/2. *)
Theorem small_chroma_defined (Y c h : R) (A : vec3 R) :
  Rabs c <= 1 / 2 ->
  0 < luminance (lms_of Y c (cos h) (sin h))
  /\ is_finite (component Y c (cos h) (sin h) A).
Proof.
  intros Hc.
  assert (Hpos : 0 < luminance (lms_of Y c (cos h) (sin h))).
  { rewrite luminance_value.
    pose proof (sin2_cos2 h) as Hu. unfold Rsqr in Hu.
    set (x := cos h) in *. set (y := sin h) in *.
    set (u := 6623740218 / 10000000000 * x + 4676729487 / 10000000000 * y).
    assert (Hu2 : u * u <= 66 / 100).
    { unfold u.
      pose proof (Rle_0_sqr (4676729487 / 10000000000 * x
                             - 6623740218 / 10000000000 * y)) as Hs.
      unfold Rsqr in Hs. nra. }
    assert (Hc2 : c * c <= 1 / 4).
    { unfold Rabs in Hc. destruct (Rcase_abs c); nra. }
    assert (Huc : (u * c) * (u * c) <= 165 / 1000) by nra.
    nra. }
  split; [exact Hpos | ].
  apply component_finite_iff. lra.
Qed.

Lemma small_chroma_defined_witness :
  Rabs (1 / 4) <= 1 / 2 /\ is_finite (component 1 (1 / 4) (cos 0) (sin 0) (1, 0, 0)).
Proof.
  assert (H : Rabs (1 / 4) <= 1 / 2) by (rewrite Rabs_pos_eq; lra).
  split; [exact H | ].
  exact (proj2 (small_chroma_defined 1 (1 / 4) 0 (1, 0, 0) H)).
Defined.

(** Membership in the answer of the solver, on the values of the pipeline. *)
Lemma solveForChroma_spec (Y ch sh : R) (A : vec3 R) (k c : R) :
  In_rset c (solveForChroma Y ch sh A k) <->
  Y * dot A (lms_of Y c ch sh) - k * luminance (lms_of Y c ch sh) = 0
  /\ luminance (lms_of Y c ch sh) <> 0.
Proof.
  unfold solveForChroma. rewrite solveset_real_spec.
  unfold minus_const; cbn [numer denom].
  rewrite aeval_sub, aeval_scale, component_sym_denom, component_sym_numer.
  reflexivity.
Qed.

Lemma dot_scale (t a1 a2 a3 : R) (v : vec3 R) :
  dot (t * a1, t * a2, t * a3) v = t * dot (a1, a2, a3) v.
Proof. destruct v as [[x y] z]. cbn [dot ladd lscale Lin_R]. ring. Qed.

(** X5. The roots only depend on the ratio of [k] to [Y] times the row:
    multiplying the luminance and the target, or the row and the target, by
    the same non-zero factor leaves the set of roots unchanged, and a factor
    may be moved between the luminance and the row. *)
Theorem roots_scale_invariant (Y ch sh a1 a2 a3 k t c : R) :
  t <> 0 ->
  (In_rset c (solveForChroma (t * Y) ch sh (a1, a2, a3) (t * k)) <->
   In_rset c (solveForChroma Y ch sh (a1, a2, a3) k))
  /\ (In_rset c (solveForChroma Y ch sh (t * a1, t * a2, t * a3) (t * k)) <->
      In_rset c (solveForChroma Y ch sh (a1, a2, a3) k))
  /\ (In_rset c (solveForChroma (t * Y) ch sh (a1, a2, a3) k) <->
      In_rset c (solveForChroma Y ch sh (t * a1, t * a2, t * a3) k)).
Proof.
  intros Ht. rewrite !solveForChroma_spec, !dot_scale.
  change (lms_of (t * Y) c ch sh) with (lms_of Y c ch sh).
  set (n := dot (a1, a2, a3) (lms_of Y c ch sh)).
  set (d := luminance (lms_of Y c ch sh)).
  assert (E : t * Y * n - t * k * d = t * (Y * n - k * d)) by ring.
  assert (E' : Y * (t * n) - t * k * d = t * (Y * n - k * d)) by ring.
  assert (E'' : t * Y * n - k * d = Y * (t * n) - k * d) by ring.
  assert (Hz : forall x, t * x = 0 <-> x = 0).
  { intros x. split; [ | intros ->; ring].
    intros Hx. apply Rmult_integral in Hx. destruct Hx; [contradiction | assumption]. }
  rewrite E, E', E'', !Hz. tauto.
Qed.

Lemma roots_scale_invariant_witness :
  In_rset c_example (solveForChroma (3 * (1 / 2)) 1 0 (1, 0, 0) (3 * 1)) <->
  In_rset c_example (solveForChroma (1 / 2) 1 0 (1, 0, 0) 1).
Proof.
  assert (H : 3 <> 0) by lra.
  exact (proj1 (roots_scale_invariant (1 / 2) 1 0 1 0 0 1 3 c_example H)).
Defined.

(** X6. At luminance 0 the boundary equation has no root when [k] is not 0,
    and when [k] is 0 every chroma at which the divisor is not zero is a
    root. *)
Theorem black_luminance_roots (ch sh : R) (A : vec3 R) (k c : R) :
  In_rset c (solveForChroma 0 ch sh A k) <->
  k = 0 /\ luminance (lms_of 0 c ch sh) <> 0.
Proof.
  rewrite solveForChroma_spec. split.
  - intros [H N]. split; [ | exact N].
    assert (E : k * luminance (lms_of 0 c ch sh) = 0) by lra.
    apply Rmult_integral in E. destruct E; [assumption | contradiction].
  - intros [-> N]. split; [ring | exact N].
Qed.

Lemma boundary_numerator (Y c ch sh a1 a2 a3 k : R) :
  Y * dot (a1, a2, a3) (lms_of Y c ch sh) - k * luminance (lms_of Y c ch sh)
  = boundary_slope Y ch sh (a1, a2, a3) k * c
    - (k * (w1 * (95 / 100 * r0 + 38 / 100 * r0')
            + w2 * (2 / 100 * r0 + 59 / 100 * r0' + 3 / 100))
       - Y * (a1 * (95 / 100 * r0 + 38 / 100 * r0')
              + a2 * (2 / 100 * r0 + 59 / 100 * r0' + 3 / 100)
              + a3 * (97 / 100 * (1 - r0 - r0')))).
Proof.
  unfold boundary_slope.
  cbv [lms_of lms rgb Yrg mat_vec rgb_to_lms dot luminance lsub
       ladd lscale lconst Lin_R].
  field.
Qed.

(** X7. The closed form of the boundary chroma.  When the coefficient of
    [c] in the cleared equation is not zero, the answer of the solver holds
    no other chroma than [boundary_chroma Y ch sh A k], and holds it exactly
    when the divisor is not zero there. *)
Theorem boundary_chroma_closed_form (Y ch sh a1 a2 a3 k c : R) :
  boundary_slope Y ch sh (a1, a2, a3) k <> 0 ->
  In_rset c (solveForChroma Y ch sh (a1, a2, a3) k) <->
  c = boundary_chroma Y ch sh (a1, a2, a3) k
  /\ luminance (lms_of Y c ch sh) <> 0.
Proof.
  intros Hs. rewrite solveForChroma_spec, boundary_numerator.
  unfold boundary_chroma.
  set (s := boundary_slope Y ch sh (a1, a2, a3) k) in *.
  set (n := k * _ - Y * _).
  split; intros [H N]; (split; [ | exact N]).
  - apply (Rmult_eq_reg_l s); [ | exact Hs].
    replace (s * (n / s)) with n by (field; exact Hs). lra.
  - rewrite H. field. exact Hs.
Qed.

Lemma boundary_chroma_closed_form_witness :
  boundary_slope (1 / 2) 1 0 (1, 0, 0) 1 <> 0
  /\ boundary_chroma (1 / 2) 1 0 (1, 0, 0) 1 = c_example
  /\ In_rset c_example (solveForChroma (1 / 2) 1 0 (1, 0, 0) 1).
Proof.
  assert (Hs : boundary_slope (1 / 2) 1 0 (1, 0, 0) 1 <> 0).
  { cbv [boundary_slope w1 w2]. lra. }
  assert (Hc : boundary_chroma (1 / 2) 1 0 (1, 0, 0) 1 = c_example).
  { cbv [boundary_chroma boundary_slope w1 w2 r0 r0' c_example]. field. }
  split; [exact Hs | ]. split; [exact Hc | ].
  apply (boundary_chroma_closed_form (1 / 2) 1 0 1 0 0 1 c_example Hs).
  split; [symmetry; exact Hc | ].
  unfold c_example. unfold_pipeline. lra.
Defined.

(** X8. Between two chromas at which the divisor has the same sign the
    channel value does not oscillate: its variation is
    [chroma_trend * (c2 - c1) / (divisor at c1 * divisor at c2)], so it is
    non-decreasing in [c] when [chroma_trend] is not negative and
    non-increasing when it is not positive. *)
Theorem component_monotone_in_chroma (Y ch sh : R) (A : vec3 R) (c1 c2 : R) :
  0 < luminance (lms_of Y c1 ch sh) * luminance (lms_of Y c2 ch sh) ->
  c1 <= c2 ->
  exists x1 x2 : R,
    component Y c1 ch sh A = Fin x1
    /\ component Y c2 ch sh A = Fin x2
    /\ x2 - x1 = chroma_trend Y ch sh A * (c2 - c1)
                 / (luminance (lms_of Y c1 ch sh) * luminance (lms_of Y c2 ch sh))
    /\ (0 <= chroma_trend Y ch sh A -> x1 <= x2)
    /\ (chroma_trend Y ch sh A <= 0 -> x2 <= x1).
Proof.
  intros Hpos Hle.
  rewrite <- (component_sym_denom Y c1 ch sh A) in *.
  rewrite <- (component_sym_denom Y c2 ch sh A) in *.
  assert (N1 : aeval (denom (component_sym Y ch sh A)) c1 <> 0)
    by (intros E; rewrite E in Hpos; lra).
  assert (N2 : aeval (denom (component_sym Y ch sh A)) c2 <> 0)
    by (intros E; rewrite E in Hpos; lra).
  rewrite (component_sym_spec Y c1 ch sh A N1), (component_sym_spec Y c2 ch sh A N2).
  do 2 eexists. split; [reflexivity | ]. split; [reflexivity | ].
  unfold chroma_trend.
  set (p := numer (component_sym Y ch sh A)) in *.
  set (q := denom (component_sym Y ch sh A)) in *.
  assert (Hd : aeval p c2 / aeval q c2 - aeval p c1 / aeval q c1
               = (slope p * cst q - cst p * slope q) * (c2 - c1)
                 / (aeval q c1 * aeval q c2)).
  { unfold aeval in *. field. split; assumption. }
  split; [exact Hd | ].
  assert (Hinv : 0 < / (aeval q c1 * aeval q c2))
    by (apply Rinv_0_lt_compat; exact Hpos).
  unfold Rdiv in Hd at 3.
  split; intros Ht.
  - assert (0 <= (slope p * cst q - cst p * slope q) * (c2 - c1)) by nra.
    assert (0 <= (slope p * cst q - cst p * slope q) * (c2 - c1)
                 * / (aeval q c1 * aeval q c2)) by (apply Rmult_le_pos; lra).
    lra.
  - assert (0 <= - (slope p * cst q - cst p * slope q) * (c2 - c1)) by nra.
    assert (0 <= - (slope p * cst q - cst p * slope q) * (c2 - c1)
                 * / (aeval q c1 * aeval q c2)) by (apply Rmult_le_pos; lra).
    lra.
Qed.

Lemma component_monotone_in_chroma_witness :
  0 < luminance (lms_of 1 0 1 0) * luminance (lms_of 1 1 1 0)
  /\ exists x1 x2 : R,
      component 1 0 1 0 (1, 0, 0) = Fin x1
      /\ component 1 1 1 0 (1, 0, 0) = Fin x2 /\ x1 <= x2.
Proof.
  assert (Hpos : 0 < luminance (lms_of 1 0 1 0) * luminance (lms_of 1 1 1 0)).
  { unfold_pipeline. lra. }
  assert (Hle : 0 <= 1) by lra.
  split; [exact Hpos | ].
  destruct (component_monotone_in_chroma 1 1 0 (1, 0, 0) 0 1 Hpos Hle)
    as [x1 [x2 [E1 [E2 [_ [Hup _]]]]]].
  exists x1, x2. split; [exact E1 | ]. split; [exact E2 | ].
  apply Hup.
  cbv [chroma_trend component_sym numer denom lms_of lms rgb Yrg mat_vec
       rgb_to_lms dot luminance c_sym lsub ladd lscale lconst Lin_aff
       cst slope r0 r0' w1 w2].
  lra.
Defined.

(** X9. The channel value is linear in the row: where the divisor is not
    zero, the value for the row [s * A + t * B] is [s] times the value for
    [A] plus [t] times the value for [B], and the rows (1,0,0), (0,1,0) and
    (0,0,1) give the three entries of [LMS]. *)
Theorem component_linear_in_row
  (Y c ch sh a1 a2 a3 b1 b2 b3 s t : R) :
  luminance (lms_of Y c ch sh) <> 0 ->
  component Y c ch sh (s * a1 + t * b1, s * a2 + t * b2, s * a3 + t * b3)
  = Num.add (Num.mul (Fin s) (component Y c ch sh (a1, a2, a3)))
            (Num.mul (Fin t) (component Y c ch sh (b1, b2, b3)))
  /\ LMS Y (lms_of Y c ch sh)
     = (component Y c ch sh (1, 0, 0), component Y c ch sh (0, 1, 0),
        component Y c ch sh (0, 0, 1)).
Proof.
  intros Hv. rewrite !(component_finite Y c ch sh _ Hv), (LMS_finite Y _ Hv).
  destruct (lms_of Y c ch sh) as [[l m] z].
  cbn [dot ladd lscale Lin_R Num.add Num.mul fst snd]. split.
  - f_equal. field. exact Hv.
  - repeat apply f_equal2; f_equal; field; exact Hv.
Qed.

Lemma component_linear_in_row_witness :
  luminance (lms_of 1 0 1 0) <> 0
  /\ component 1 0 1 0 (2 * 1 + 3 * 0, 2 * 0 + 3 * 1, 2 * 0 + 3 * 0)
     = Num.add (Num.mul (Fin 2) (component 1 0 1 0 (1, 0, 0)))
               (Num.mul (Fin 3) (component 1 0 1 0 (0, 1, 0))).
Proof.
  assert (H : luminance (lms_of 1 0 1 0) <> 0) by (unfold_pipeline; lra).
  split; [exact H | ].
  exact (proj1 (component_linear_in_row 1 0 1 0 1 0 0 0 1 0 2 3 H)).
Defined.

(** ** Properties of the notification bot *)

Import MatrixBot.

(** The test of the listener, as a proposition. *)
Lemma other_room_true (r : option string) (j : string) :
  other_room r j = true <->
  exists name, r = Some name /\ name <> EmptyString /\ name <> j.
Proof.
  destruct r as [name | ]; cbn.
  - rewrite andb_true_iff, !negb_true_iff.
    split.
    + intros [He Hj]. exists name. split; [reflexivity | ].
      split; apply String.eqb_neq; assumption.
    + intros [n [E [He Hj]]]. injection E as <-.
      split; apply String.eqb_neq; assumption.
  - split; [discriminate | ]. intros [n [E _]]. discriminate.
Qed.

(** The two ways a call of the listener goes. *)
Lemma send_message_cases (args : Args) (api : Sent -> bool) (j : string)
      (calls : list Sent) :
  (other_room (room args) j = true
   /\ send_message args api j calls = (calls, Returned))
  \/ (other_room (room args) j = false
      /\ fst (send_message args api j calls)
         = (calls ++ [mkSent j (format (message args)) "m.notice"])%list
      /\ snd (send_message args api j calls)
         = (if api (mkSent j (format (message args)) "m.notice")
            then Raised else Exited)).
Proof.
  unfold send_message.
  destruct (other_room (room args) j); [left; split; reflexivity | right].
  split; [reflexivity | ].
  destruct (api _); split; reflexivity.
Qed.

(** X10. One call of the listener.  It returns without posting exactly when
    [--room] is given, is not empty and differs from the joined room; with
    [--room] absent or empty it posts to the joined room, whichever it is.
    When it posts, the text is the one of [--message] (the word None when
    the option is absent), as a notice, and the call does not return: the
    process exits unless the API raises. *)
Theorem send_message_behaviour (args : Args) (api : Sent -> bool) (j : string)
        (calls : list Sent) :
  (send_message args api j calls = (calls, Returned) <->
   exists name, room args = Some name /\ name <> EmptyString /\ name <> j)
  /\ (send_message args api j calls <> (calls, Returned) ->
      fst (send_message args api j calls)
      = (calls ++ [mkSent j (match message args with
                             | Some text => text
                             | None => "None"%string
                             end) "m.notice"])%list
      /\ snd (send_message args api j calls) <> Returned
      /\ (snd (send_message args api j calls) = Exited <->
          api (mkSent j (format (message args)) "m.notice") = false)).
Proof.
  rewrite <- other_room_true.
  destruct (send_message_cases args api j calls) as [[Ho E] | [Ho [E1 E2]]].
  - split; [rewrite E, Ho; tauto | ]. intros N. contradiction.
  - split.
    + rewrite Ho. split; [ | discriminate].
      intros E. rewrite E in E2. cbn in E2. destruct (api _); discriminate.
    + intros _. split; [exact E1 | ]. rewrite E2.
      destruct (api _); split; try discriminate; split; congruence.
Qed.

Lemma send_message_behaviour_witness :
  fst (send_message (mkArgs None None None None (Some EmptyString))
                    (fun _ => false) "!a:matrix.org" [])
  = [mkSent "!a:matrix.org" "None" "m.notice"]
  /\ snd (send_message (mkArgs None None None None (Some EmptyString))
                       (fun _ => false) "!a:matrix.org" [])
     = Exited.
Proof.
  destruct (send_message_behaviour
              (mkArgs None None None None (Some EmptyString)) (fun _ => false)
              "!a:matrix.org" []) as [_ H].
  assert (N : send_message (mkArgs None None None None (Some EmptyString))
                           (fun _ => false) "!a:matrix.org" []
              <> ([], Returned)) by (vm_compute; discriminate).
  destruct (H N) as [E1 [_ E3]].
  split; [exact E1 | apply E3; reflexivity].
Defined.

(** A room that passes the test of the listener ends the startup there. *)
Lemma startup_cons (args : Args) (api : Sent -> bool) (j : string)
      (rest : list string) (calls : list Sent) :
  startup args api (j :: rest) calls
  = if other_room (room args) j then startup args api rest calls
    else send_message args api j calls.
Proof.
  cbn [startup]. unfold send_message.
  destruct (other_room (room args) j); [reflexivity | ].
  destruct (api _); reflexivity.
Qed.

(** X11. Whatever rooms the bot has joined, a startup issues at most one
    call of the API, after the calls already made; the call is a notice
    with the text of [--message], to one of the joined rooms; and the
    startup ends the process or raises exactly when it issued a call:
    otherwise every call of the listener returned and the bot keeps
    running. *)
Theorem startup_at_most_one_call (args : Args) (api : Sent -> bool)
        (rooms : list string) (calls : list Sent) :
  (fst (startup args api rooms calls) = calls
   /\ snd (startup args api rooms calls) = Returned)
  \/ (exists j,
         In j rooms
         /\ fst (startup args api rooms calls)
            = (calls ++ [mkSent j (format (message args)) "m.notice"])%list
         /\ snd (startup args api rooms calls)
            = (if api (mkSent j (format (message args)) "m.notice")
               then Raised else Exited)).
Proof.
  induction rooms as [ | j rest IH].
  - left. split; reflexivity.
  - rewrite startup_cons.
    destruct (send_message_cases args api j calls) as [[Ho _] | [Ho [E1 E2]]];
      rewrite Ho.
    + destruct IH as [IH | [j' [Hin IH]]]; [left; exact IH | right].
      exists j'. split; [right; exact Hin | exact IH].
    + right. exists j. split; [left; reflexivity | ]. split; assumption.
Qed.

(** X12. With a non-empty [--room], the startup posts exactly when the bot
    has joined that room, and then to that room; when the bot has not joined
    it, nothing is posted and the process is not ended. *)
Theorem startup_room_filter (args : Args) (api : Sent -> bool)
        (name : string) (rooms : list string) (calls : list Sent) :
  room args = Some name -> name <> EmptyString ->
  (In name rooms ->
   fst (startup args api rooms calls)
   = (calls ++ [mkSent name (format (message args)) "m.notice"])%list
   /\ snd (startup args api rooms calls) <> Returned)
  /\ (~ In name rooms -> startup args api rooms calls = (calls, Returned)).
Proof.
  intros Hr Hne.
  assert (Ho : forall j, other_room (room args) j = negb (name =? j)%string).
  { intros j. rewrite Hr. cbn.
    apply String.eqb_neq in Hne. rewrite Hne. reflexivity. }
  induction rooms as [ | j rest IH].
  - split; [intros [] | reflexivity].
  - rewrite startup_cons, Ho.
    destruct (String.eqb_spec name j) as [<- | Hj]; cbn [negb].
    + split; [intros _ | intros N; contradiction N; left; reflexivity].
      destruct (send_message_cases args api name calls)
        as [[Ho' _] | [_ [E1 E2]]].
      * rewrite Ho, String.eqb_refl in Ho'. discriminate.
      * split; [exact E1 | ]. rewrite E2. destruct (api _); discriminate.
    + destruct IH as [IH1 IH2]. split.
      * intros [E | Hin]; [symmetry in E; contradiction | exact (IH1 Hin)].
      * intros N. apply IH2. intros Hin. apply N. right. exact Hin.
Qed.

Lemma startup_room_filter_witness :
  fst (startup (mkArgs (Some "done"%string) None None None (Some "!b:m.org"%string))
               (fun _ => false) ["!a:m.org"; "!b:m.org"; "!c:m.org"]%string [])
  = [mkSent "!b:m.org" "done" "m.notice"]
  /\ startup (mkArgs (Some "done"%string) None None None (Some "!b:m.org"%string))
             (fun _ => false) ["!a:m.org"; "!c:m.org"]%string []
     = ([], Returned).
Proof.
  assert (Hne : "!b:m.org"%string <> EmptyString) by discriminate.
  split.
  - apply (startup_room_filter
             (mkArgs (Some "done"%string) None None None (Some "!b:m.org"%string))
             (fun _ => false) "!b:m.org"
             ["!a:m.org"; "!b:m.org"; "!c:m.org"]%string [] eq_refl Hne).
    right. left. reflexivity.
  - apply (startup_room_filter
             (mkArgs (Some "done"%string) None None None (Some "!b:m.org"%string))
             (fun _ => false) "!b:m.org"
             ["!a:m.org"; "!c:m.org"]%string [] eq_refl Hne).
    intros [E | [E | []]]; discriminate.
Defined.

(** X13. With [--room] absent or empty, the startup posts to the first
    joined room and never looks at the others; with no joined room it posts
    nothing. *)
Theorem startup_without_room (args : Args) (api : Sent -> bool)
        (j : string) (rest : list string) (calls : list Sent) :
  room args = None \/ room args = Some EmptyString ->
  startup args api [] calls = (calls, Returned)
  /\ startup args api (j :: rest) calls = send_message args api j calls
  /\ fst (startup args api (j :: rest) calls)
     = (calls ++ [mkSent j (format (message args)) "m.notice"])%list
  /\ snd (startup args api (j :: rest) calls) <> Returned.
Proof.
  intros Hr.
  assert (Ho : other_room (room args) j = false)
    by (destruct Hr as [-> | ->]; reflexivity).
  split; [reflexivity | ].
  rewrite startup_cons, Ho. split; [reflexivity | ].
  destruct (send_message_cases args api j calls) as [[Ho' _] | [_ [E1 E2]]].
  - rewrite Ho in Ho'. discriminate.
  - split; [exact E1 | ]. rewrite E2. destruct (api _); discriminate.
Qed.

Lemma startup_without_room_witness :
  fst (startup (mkArgs (Some "done"%string) None None None None)
               (fun _ => false) ["!a:m.org"; "!b:m.org"]%string [])
  = [mkSent "!a:m.org" "done" "m.notice"].
Proof.
  exact (proj1 (proj2 (proj2
    (startup_without_room (mkArgs (Some "done"%string) None None None None)
       (fun _ => false) "!a:m.org" ["!b:m.org"%string] []
       (or_introl eq_refl))))).
Defined.
